(** * bigpipe: the Page object ([page.js])

    A shallow embedding of [Page.prototype.discover] and
    [Page.prototype.configure], the two methods that decide which pagelets
    a page may render for a request and that reset a pooled page between
    requests, together with the properties the specification states about
    them. *)

From Stdlib Require Import ZArith Lia.
From stdpp Require Import base option list gmap strings.

Local Open Scope Z_scope.
Local Open Scope nat_scope.

(** ** Values, errors and outcomes *)

(** The JavaScript values the two methods receive and return: [undefined]
    or a reference to an object (the request, the response, the page). *)
Inductive jsval :=
  | undefined
  | object (o : nat).

(** What can be thrown: the engine's [TypeError] and [new Error(message)]. *)
Inductive error :=
  | TypeError
  | Error (message : string).

(** A method call on a mutable receiver either returns a value or throws;
    in both cases the receiver is left in some state. *)
Inductive outcome (W A : Type) :=
  | Return (a : A) (w : W)
  | Throw (e : error) (w : W).
Arguments Return {W A} a w.
Arguments Throw {W A} e w.

Definition state_of {W A} (o : outcome W A) : W :=
  match o with
  | Return _ w => w
  | Throw _ w => w
  end.

Definition returns {W A} (o : outcome W A) : bool :=
  match o with
  | Return _ _ => true
  | Throw _ _ => false
  end.

(** ** Pagelets *)

(** What a callee does with the completion callback it was handed, during
    the call itself: it invokes the callback ([call_done v], only the
    truthiness [v] of the argument matters to the filter) or it throws. *)
Inductive action :=
  | call_done (v : bool)
  | throw (e : error).

(** One run of [pagelet.authorize(req, done)]: what it does before it
    returns ([now], cut short by the first [throw]) and the values it
    hands to [done] in later turns of the event loop ([later]). *)
Record behaviour := {
  now : list action;
  later : list bool
}.

(** A pagelet instance.  [ident] is the identity of the object (what [===]
    and [indexOf] compare); [authorize] is [None] when
    ['function' !== typeof pagelet.authorize]. *)
Record Pagelet := {
  ident : nat;
  authorize : option (jsval → behaviour)
}.

(** An entry of [Page.prototype.pagelets]: a pagelet constructor.
    [Pagelet.alloc().configure(page)] yields the instance [instance]. *)
Record Factory := {
  instance : Pagelet
}.

(** [Page.prototype.pagelets] is the empty object [{}] by default;
    [Pipe#transform] turns it into an array of constructors. *)
Inductive pagelets_value :=
  | empty_object
  | array (fs : list Factory).

(** ** The page *)

(** [enabled] and [disabled] start as [{}] and are arrays after a
    discovery; their keys are array indices.  A list of optional entries
    models both: [None] is a hole left by [delete], and the object without
    own keys is [[]]. *)
Record Page := {
  self : nat;
  connections : gmap string nat;
  conditional : list Pagelet;
  disabled : list (option Pagelet);
  enabled : list (option Pagelet);
  pagelets : pagelets_value;
  listeners : gmap string (list nat)
}.

Definition set_connections (c : gmap string nat) (page : Page) : Page :=
  {| self := self page; connections := c; conditional := conditional page;
     disabled := disabled page; enabled := enabled page;
     pagelets := pagelets page; listeners := listeners page |}.

Definition set_conditional (c : list Pagelet) (page : Page) : Page :=
  {| self := self page; connections := connections page; conditional := c;
     disabled := disabled page; enabled := enabled page;
     pagelets := pagelets page; listeners := listeners page |}.

Definition set_disabled (d : list (option Pagelet)) (page : Page) : Page :=
  {| self := self page; connections := connections page;
     conditional := conditional page; disabled := d; enabled := enabled page;
     pagelets := pagelets page; listeners := listeners page |}.

Definition set_enabled (e : list (option Pagelet)) (page : Page) : Page :=
  {| self := self page; connections := connections page;
     conditional := conditional page; disabled := disabled page; enabled := e;
     pagelets := pagelets page; listeners := listeners page |}.

Definition set_listeners (l : gmap string (list nat)) (page : Page) : Page :=
  {| self := self page; connections := connections page;
     conditional := conditional page; disabled := disabled page;
     enabled := enabled page; pagelets := pagelets page; listeners := l |}.

(** The constructor [Page(pipe)]. *)
Definition new_Page (o : nat) (ps : pagelets_value) : Page :=
  {| self := o; connections := ∅; conditional := []; disabled := [];
     enabled := []; pagelets := ps; listeners := ∅ |}.

(** *** Arrays with holes *)

Fixpoint own_keys_from (i : nat) (a : list (option Pagelet)) : list nat :=
  match a with
  | [] => []
  | Some _ :: rest => i :: own_keys_from (S i) rest
  | None :: rest => own_keys_from (S i) rest
  end.

(** The keys a [for (key in a)] loop visits. *)
Definition own_keys (a : list (option Pagelet)) : list nat :=
  own_keys_from 0 a.

(** [delete a[key]]: the entry becomes a hole, the length stays. *)
Definition delete_key (a : list (option Pagelet)) (key : nat)
  : list (option Pagelet) :=
  <[key := None]> a.

(** The pagelets a collection holds, by identity. *)
Definition members (a : list (option Pagelet)) : list nat :=
  ident <$> omap id a.

Definition is_empty (a : list (option Pagelet)) : bool :=
  bool_decide (own_keys a = []).

(** ** The [async] flow-control library

    [Page.prototype.async = require('async')]: the library is a dependency
    of the repository, not part of its source. *)

(** What [async.filter] does when the callback of one item is invoked a
    second time.  Releases of the library differ: the callback is wrapped
    so that a second call throws ([guarded]), or the second call is
    handled like the first one ([unguarded]).  Every statement below is
    made for both. *)
Inductive async_version :=
  | guarded
  | unguarded.

Definition is_guarded (ver : async_version) : bool :=
  match ver with
  | guarded => true
  | unguarded => false
  end.

(** Whether the final callback is due after [completed] callback calls on
    [n] items. *)
Definition finished (ver : async_version) (completed n : nat) : bool :=
  match ver with
  | guarded => n <=? completed
  | unguarded => completed =? n
  end.

Fixpoint enumerate_from {A} (i : nat) (l : list A) : list (nat * A) :=
  match l with
  | [] => []
  | x :: rest => (i, x) :: enumerate_from (S i) rest
  end.

Fixpoint insert_by_index {A} (e : nat * A) (l : list (nat * A))
  : list (nat * A) :=
  match l with
  | [] => [e]
  | h :: rest =>
      if e.1 <=? h.1 then e :: l else h :: insert_by_index e rest
  end.

(** [results.sort(function (a, b) { return a.index - b.index; })] *)
Definition sort_by_index {A} (l : list (nat * A)) : list (nat * A) :=
  foldr insert_by_index [] l.

(** The bookkeeping of one running [async.filter]. *)
Record progress (A : Type) := {
  results : list (nat * A);
  completed : nat;
  called : list nat
}.
Arguments results {A} _.
Arguments completed {A} _.
Arguments called {A} _.

Definition start {A} : progress A :=
  {| results := []; completed := 0; called := [] |}.

Section filter.
Context {A W : Type}.
Variable ver : async_version.
Variable arr : list A.
Variable iterator : A → list action.
Variable callback : list A → W → W.

(** Modelled from the spec: the callback [async.filter] hands to the
    iterator for the item [x] at index [i].  The filter keeps the items
    whose check reported a truthy value, in their original order, and
    runs the final callback once every item has reported ("fan-in
    barrier", "stable partition"); the results are sorted by index in
    place before they are handed over.  What a repeated call does is not
    fixed by the spec and is taken from [ver]: the item is pushed again
    when [v] is truthy, and then the completion is either refused with an
    exception or counted again. *)
Definition done (i : nat) (x : A) (v : bool) (st : progress A * W)
  : outcome (progress A * W) unit :=
  let pushed := if v then results st.1 ++ [(i, x)] else results st.1 in
  if is_guarded ver && bool_decide (i ∈ called st.1)
  then Throw (Error "Callback was already called.")
         ({| results := pushed; completed := completed st.1;
             called := called st.1 |}, st.2)
  else
    let count := S (completed st.1) in
    if finished ver count (length arr)
    then
      let sorted := sort_by_index pushed in
      Return ()
        ({| results := sorted; completed := count; called := i :: called st.1 |},
         callback (snd <$> sorted) st.2)
    else
      Return ()
        ({| results := pushed; completed := count; called := i :: called st.1 |},
         st.2).

(** Running what the iterator does with its callback, in order. *)
Fixpoint perform (i : nat) (x : A) (acts : list action)
    (st : progress A * W) : outcome (progress A * W) unit :=
  match acts with
  | [] => Return () st
  | call_done v :: rest =>
      match done i x v st with
      | Return _ st' => perform i x rest st'
      | Throw e st' => Throw e st'
      end
  | throw e :: _ => Throw e st
  end.

(** Modelled from the spec: the fan-out, one iterator call per item.
    Nothing catches what an iterator throws. *)
Fixpoint each (items : list (nat * A)) (st : progress A * W)
  : outcome (progress A * W) unit :=
  match items with
  | [] => Return () st
  | (i, x) :: rest =>
      match perform i x (iterator x) st with
      | Return _ st' => each rest st'
      | Throw e st' => Throw e st'
      end
  end.

(** Modelled from the spec: [async.filter(arr, iterator, callback)], up
    to the point where it returns to its caller.  An empty [arr]
    completes at once. *)
Definition async_filter (w : W) : outcome (progress A * W) unit :=
  match arr with
  | [] => Return () (start, callback [] w)
  | _ => each (enumerate_from 0 arr) (start, w)
  end.

(** The items whose iterator was invoked: the fan-out stops at the first
    item whose iterator throws, and the items after it are never
    reached. *)
Fixpoint invoked (items : list (nat * A)) (st : progress A * W)
  : list (nat * A) :=
  match items with
  | [] => []
  | (i, x) :: rest =>
      (i, x) ::
      match perform i x (iterator x) st with
      | Return _ st' => invoked rest st'
      | Throw _ _ => []
      end
  end.

(** A callback call that arrives in a later turn of the event loop; an
    exception it raises there does not reach the caller of the filter. *)
Definition settle (st : progress A * W) (c : nat * A * bool)
  : progress A * W :=
  state_of (done c.1.1 c.1.2 c.2 st).
End filter.

(** ** [Page.prototype.discover] *)

(** [function allocate(Pagelet) { return Pagelet.alloc().configure(page); }] *)
Definition allocate (page : Page) (F : Factory) : Pagelet :=
  instance F.

(** [function rejection(pagelet, done)]: the authorization check, when the
    pagelet has one, gets [done]; then [done(true)] is called in any
    case. *)
Definition rejection (req : jsval) (pagelet : Pagelet) : list action :=
  match authorize pagelet with
  | Some check => now (check req) ++ [call_done true]
  | None => [call_done true]
  end.

Fixpoint index_from (i : Z) (l : list Pagelet) (x : Pagelet) : Z :=
  match l with
  | [] => (-1)%Z
  | y :: rest =>
      if ident y =? ident x then i else index_from (i + 1)%Z rest x
  end.

(** [l.indexOf(x)]: the first index where [x] occurs, [-1] when absent. *)
Definition indexOf (l : list Pagelet) (x : Pagelet) : Z :=
  index_from 0%Z l x.

(** [!!n] on a number. *)
Definition truthy (n : Z) : bool :=
  negb (n =? 0)%Z.

(** [function acceptance(allowed)] with the inner
    [function disabled(pagelet) { return !!allowed.indexOf(pagelet); }]. *)
Definition acceptance (pagelets allowed : list Pagelet) (page : Page) : Page :=
  set_disabled
    (Some <$> List.filter (λ pagelet, truthy (indexOf allowed pagelet)) pagelets)
    (set_enabled (Some <$> allowed) page).

Definition discover (ver : async_version) (req : jsval) (page : Page)
  : outcome Page jsval :=
  match pagelets page with
  | empty_object => Throw TypeError page
  | array fs =>
      let pagelets := allocate page <$> fs in
      match async_filter ver pagelets (rejection req) (acceptance pagelets) page with
      | Return _ st => Return undefined st.2
      | Throw e st => Throw e st.2
      end
  end.

(** The callback calls that [discover] leaves pending for later turns:
    the later answers of the checks that were called.  Pagelets after the
    one at which the fan-out stopped have not been checked and answer
    nothing. *)
Definition pending (ver : async_version) (req : jsval) (page : Page)
  : list (nat * Pagelet * bool) :=
  match pagelets page with
  | empty_object => []
  | array fs =>
      let pagelets := allocate page <$> fs in
      '(i, x) ← invoked ver pagelets (rejection req) (acceptance pagelets)
                  (enumerate_from 0 pagelets) (start, page);
      match authorize x with
      | Some check => (λ v, (i, x, v)) <$> later (check req)
      | None => []
      end
  end.

(** ** [Page.prototype.configure] *)

(** Modelled from the spec: [EventEmitter.prototype.removeAllListeners()]
    comes from Node's [events] module; called without an event name it
    removes "all previously registered listeners on this instance". *)
Definition removeAllListeners (page : Page) : Page :=
  set_listeners ∅ page.

(** The reset phase: the three [for (key in ...)] loops,
    [this.conditional.length = 0] and [this.removeAllListeners()]. *)
Definition reset (page : Page) : Page :=
  let page :=
    set_connections
      (map_fold (λ key _ c, delete key c) (connections page) (connections page))
      page in
  let page :=
    set_enabled (foldl delete_key (enabled page) (own_keys (enabled page)))
      page in
  let page :=
    set_enabled (foldl delete_key (enabled page) (own_keys (disabled page)))
      page in
  let page := set_conditional [] page in
  removeAllListeners page.

Definition configure (ver : async_version) (req res : jsval) (page : Page)
  : outcome Page jsval :=
  let page := reset page in
  match discover ver undefined page with
  | Return _ page' => Return (object (self page')) page'
  | Throw e page' => Throw e page'
  end.

(** ** Sample pagelets and pages *)

(** A pagelet without an [authorize] method. *)
Definition unchecked (i : nat) : Pagelet :=
  {| ident := i; authorize := None |}.

(** [authorize] hands [v] to [done] in a later turn of the event loop. *)
Definition answers_later (i : nat) (v : bool) : Pagelet :=
  {| ident := i;
     authorize := Some (λ _, {| now := []; later := [v] |}) |}.

(** [authorize] hands [v] to [done] before it returns. *)
Definition answers_at_once (i : nat) (v : bool) : Pagelet :=
  {| ident := i;
     authorize := Some (λ _, {| now := [call_done v]; later := [] |}) |}.

(** [authorize] hands [v] to [done] and then throws. *)
Definition answers_then_throws (i : nat) (v : bool) : Pagelet :=
  {| ident := i;
     authorize :=
       Some (λ _, {| now := [call_done v; throw (Error "denied")];
                     later := [] |}) |}.

(** [authorize] throws. *)
Definition refuses (i : nat) : Pagelet :=
  {| ident := i;
     authorize :=
       Some (λ _, {| now := [throw (Error "denied")]; later := [] |}) |}.

(** [authorize] reads a property of the request before it defers its
    answer: a [TypeError] when the request is [undefined]. *)
Definition reads_request (i : nat) : Pagelet :=
  {| ident := i;
     authorize :=
       Some (λ req,
         match req with
         | undefined => {| now := [throw TypeError]; later := [] |}
         | object _ => {| now := []; later := [true] |}
         end) |}.

(** A fresh page (object [0]) whose pagelets allocate the given
    instances. *)
Definition page_of (l : list Pagelet) : Page :=
  new_Page 0 (array (Build_Factory <$> l)).

(** A page in use: a connection is open and a listener is attached. *)
Definition busy_page (l : list Pagelet) : Page :=
  set_listeners {["end" := [7]]}
    (set_connections {["socket" := 5]} (page_of l)).

(** The listener [fn] is attached to [page] for [event]. *)
Definition attached (page : Page) (event : string) (fn : nat) : Prop :=
  ∃ fns, listeners page !! event = Some fns ∧ fn ∈ fns.

(** The page once the callback calls that [discover] left pending have
    arrived. *)
Definition discover_settled (ver : async_version) (req : jsval) (page : Page)
  : Page :=
  match pagelets page with
  | empty_object => page
  | array fs =>
      let pagelets := allocate page <$> fs in
      (foldl (settle ver pagelets (acceptance pagelets))
         (state_of (async_filter ver pagelets (rejection req)
                      (acceptance pagelets) page))
         (pending ver req page)).2
  end.

(** ** Predicates used in the statements *)

(** After [k] items were handled, each has reported at least once. *)
Definition reported {A} (k : nat) (pr : progress A) : Prop :=
  k ≤ completed pr ∧ ∀ i, i < k → i ∈ called pr.

(** Two runs of a filter over [n] items have made the same progress, and
    their worlds are related by [R] once the final callback has run. *)
Definition agree {A W} (n : nat) (R : W → W → Prop)
    (st1 st2 : progress A * W) : Prop :=
  st1.1 = st2.1 ∧ (n ≤ completed st1.1 → R st1.2 st2.2).

Inductive alike {A W} (n : nat) (R : W → W → Prop) :
    outcome (progress A * W) unit → outcome (progress A * W) unit → Prop :=
  | alike_return u st1 st2 :
      agree n R st1 st2 → alike n R (Return u st1) (Return u st2)
  | alike_throw e st1 st2 :
      agree n R st1 st2 → alike n R (Throw e st1) (Throw e st2).

(** The fields [acceptance] does not assign. *)
Definition frame (page page' : Page) : Prop :=
  self page' = self page ∧
  connections page' = connections page ∧
  conditional page' = conditional page ∧
  pagelets page' = pagelets page ∧
  listeners page' = listeners page.

(** A check is deferred when it neither calls back nor throws before it
    returns: it reports in a later turn of the event loop.  A pagelet
    without a check counts as deferred. *)
Definition deferred (req : jsval) (pagelet : Pagelet) : bool :=
  match authorize pagelet with
  | Some check =>
      match now (check req) with
      | [] => true
      | _ :: _ => false
      end
  | None => true
  end.

Definition is_throw (a : action) : bool :=
  match a with
  | throw _ => true
  | call_done _ => false
  end.

(** The check of the pagelet throws before it returns. *)
Definition throws (req : jsval) (pagelet : Pagelet) : bool :=
  match authorize pagelet with
  | Some check => existsb is_throw (now (check req))
  | None => false
  end.

(** The filter has only pushed items of [arr], and once every item has
    reported the world is what the final callback made of some selection
    of them. *)
Definition decided {A W} (arr : list A) (callback : list A → W → W)
    (st : progress A * W) : Prop :=
  (∀ e, e ∈ results st.1 → e.2 ∈ arr) ∧
  (length arr ≤ completed st.1 →
   ∃ allowed w0, (∀ p, p ∈ allowed → p ∈ arr) ∧ st.2 = callback allowed w0).

(** * Properties *)

(** ** The filter *)

Section filter_facts.
Context {A W : Type}.
Variable ver : async_version.
Variable arr : list A.
Variable iterator : A → list action.
Variable callback : list A → W → W.

(** A callback call throws only under the guard, for an index that has
    reported before; it leaves the world and the counters as they were. *)
Lemma done_throw_inv i x v st e st' :
  done ver arr callback i x v st = Throw e st' →
  st'.2 = st.2 ∧ completed st'.1 = completed st.1 ∧
  called st'.1 = called st.1 ∧
  is_guarded ver = true ∧ i ∈ called st.1.
Proof.
  unfold done.
  destruct (is_guarded ver) eqn:Hg; simpl.
  - case_bool_decide as Hin; simpl.
    + intros [= <- <-]. done.
    + destruct (finished _ _ _); discriminate.
  - destruct (finished _ _ _); discriminate.
Qed.

(** A callback call that returns counts one completion and records the
    index; the world is either untouched or the final callback ran. *)
Lemma done_return_inv i x v st u st' :
  done ver arr callback i x v st = Return u st' →
  completed st'.1 = S (completed st.1) ∧
  called st'.1 = i :: called st.1 ∧
  (st'.2 = st.2 ∨ ∃ allowed, st'.2 = callback allowed st.2).
Proof.
  unfold done.
  destruct (is_guarded ver && bool_decide (i ∈ called st.1)); [discriminate|].
  destruct (finished _ _ _); intros [= <- <-]; simpl; eauto.
Qed.

Section invariant.
Variable P : W → Prop.
Hypothesis callback_keeps : ∀ allowed w, P w → P (callback allowed w).

Lemma done_keeps i x v st :
  P st.2 → P (state_of (done ver arr callback i x v st)).2.
Proof.
  intros HP.
  destruct (done ver arr callback i x v st) as [u st'|e st'] eqn:Hd; simpl.
  - apply done_return_inv in Hd as (_ & _ & [-> | [allowed ->]]); auto.
  - apply done_throw_inv in Hd as (-> & _); auto.
Qed.

Lemma perform_keeps i x acts st :
  P st.2 → P (state_of (perform ver arr callback i x acts st)).2.
Proof.
  revert st.
  induction acts as [|[v|e] acts IH]; intros st HP; simpl; auto.
  pose proof (done_keeps i x v st HP) as Hd.
  destruct (done ver arr callback i x v st); simpl in *; auto.
Qed.

Lemma each_keeps items st :
  P st.2 → P (state_of (each ver arr iterator callback items st)).2.
Proof.
  revert st.
  induction items as [|[i x] items IH]; intros st HP; simpl; auto.
  pose proof (perform_keeps i x (iterator x) st HP) as Hp.
  destruct (perform ver arr callback i x (iterator x) st); simpl in *; auto.
Qed.

(** Whatever the final callback preserves, the filter preserves, also
    when an iterator throws. *)
Lemma async_filter_keeps w :
  P w → P (state_of (async_filter ver arr iterator callback w)).2.
Proof.
  intros HP. unfold async_filter.
  destruct arr as [|a l] eqn:Harr; simpl; auto.
  rewrite <- Harr. change (P (state_of
    (each ver arr iterator callback (enumerate_from 0 (a :: l)) (start, w))).2).
  by apply each_keeps.
Qed.
End invariant.

(** *** Counting completions *)

Lemma perform_return_mono i x acts st u st' :
  perform ver arr callback i x acts st = Return u st' →
  completed st.1 ≤ completed st'.1 ∧
  (∀ j, j ∈ called st.1 → j ∈ called st'.1).
Proof.
  revert st.
  induction acts as [|[v|e] acts IH]; intros st; simpl.
  - intros [= <- <-]. done.
  - destruct (done ver arr callback i x v st) as [u1 st1|] eqn:Hd; [|discriminate].
    intros Hp. apply IH in Hp as [Hc Hin].
    apply done_return_inv in Hd as (Hc1 & Hcl & _).
    split; [lia|]. intros j Hj. apply Hin. rewrite Hcl. by right.
  - discriminate.
Qed.

Lemma perform_return_reports i x acts st u st' :
  (∃ v, call_done v ∈ acts) →
  perform ver arr callback i x acts st = Return u st' →
  completed st.1 < completed st'.1 ∧ i ∈ called st'.1.
Proof.
  revert st.
  induction acts as [|[v|e] acts IH]; intros st [v0 Hin]; simpl.
  - by apply elem_of_nil in Hin.
  - destruct (done ver arr callback i x v st) as [u1 st1|] eqn:Hd; [|discriminate].
    intros Hp. apply perform_return_mono in Hp as [Hc Hcl].
    apply done_return_inv in Hd as (Hc1 & Hcl1 & _).
    split; [lia|]. apply Hcl. rewrite Hcl1. by left.
  - discriminate.
Qed.

Lemma each_return_reported items k st u st' :
  (∀ x, ∃ v, call_done v ∈ iterator x) →
  reported k st.1 →
  each ver arr iterator callback (enumerate_from k items) st = Return u st' →
  reported (k + length items) st'.1.
Proof.
  intros Hit. revert k st.
  induction items as [|x items IH]; intros k st Hrep; simpl.
  - intros [= <- <-]. by rewrite Nat.add_0_r.
  - destruct (perform ver arr callback k x (iterator x) st) as [u1 st1|] eqn:Hp;
      [|discriminate].
    intros He. apply IH in He.
    + by replace (k + S (length items)) with (S k + length items) by lia.
    + pose proof Hp as Hm. apply perform_return_mono in Hm as [_ Hcl].
      apply perform_return_reports in Hp as [Hc Hk]; [|done].
      destruct Hrep as [Hrc Hri]. split; [lia|].
      intros i Hi. destruct (decide (i = k)) as [->|]; [done|].
      apply Hcl, Hri. lia.
Qed.

(** When the filter returns, every item has reported. *)
Lemma async_filter_return_reported w u st :
  arr ≠ [] →
  (∀ x, ∃ v, call_done v ∈ iterator x) →
  async_filter ver arr iterator callback w = Return u st →
  reported (length arr) st.1.
Proof.
  intros Hne Hit. unfold async_filter.
  destruct arr as [|a l] eqn:Harr; [done|]. rewrite <- Harr.
  intros He.
  apply (each_return_reported arr 0) in He; [done|done|].
  split; simpl; [lia|]. intros i Hi. lia.
Qed.

(** Once every item has reported, a callback call in a later turn leaves
    the world as it is. *)
Lemma settle_inert st c :
  reported (length arr) st.1 →
  c.1.1 < length arr →
  (settle ver arr callback st c).2 = st.2 ∧
  reported (length arr) (settle ver arr callback st c).1.
Proof.
  intros [Hc Hcl] Hi. unfold settle, done.
  destruct ver; cbn [is_guarded andb finished completed].
  - rewrite bool_decide_eq_true_2 by auto. simpl.
    split; [done|]. split; [exact Hc|exact Hcl].
  - replace (S (completed st.1) =? length arr) with false
      by (symmetry; apply Nat.eqb_neq; lia).
    simpl. split; [done|]. split; simpl; [lia|].
    intros i Hlt. apply elem_of_cons. right. auto.
Qed.
End filter_facts.

(** *** Two runs of the same filter *)

Section two_runs.
Context {A W : Type}.
Variable ver : async_version.
Variable arr : list A.
Variable iterator : A → list action.
Variable callback1 callback2 : list A → W → W.
Variable R : W → W → Prop.
Hypothesis callbacks_agree :
  ∀ allowed w1 w2, R (callback1 allowed w1) (callback2 allowed w2).

Lemma finished_false_past c :
  finished ver (S c) (length arr) = false →
  length arr ≤ S c → length arr ≤ c.
Proof.
  destruct ver; cbn [finished].
  - intros Hf%Nat.leb_gt. lia.
  - intros Hf%Nat.eqb_neq. lia.
Qed.

Lemma done_alike i x v st1 st2 :
  agree (length arr) R st1 st2 →
  alike (length arr) R (done ver arr callback1 i x v st1)
    (done ver arr callback2 i x v st2).
Proof.
  destruct st1 as [pr1 w1], st2 as [pr2 w2].
  intros [Hpr HR]. simpl in Hpr, HR. subst pr2.
  unfold done. cbn [fst snd].
  destruct (is_guarded ver && bool_decide (i ∈ called pr1)).
  { constructor. done. }
  cbn [completed].
  destruct (finished ver (S (completed pr1)) (length arr)) eqn:Hf;
    constructor; (split; [done|]); cbn [fst snd completed]; intros Hle.
  - apply callbacks_agree.
  - apply HR. by apply finished_false_past.
Qed.

Lemma perform_alike i x acts st1 st2 :
  agree (length arr) R st1 st2 →
  alike (length arr) R (perform ver arr callback1 i x acts st1)
    (perform ver arr callback2 i x acts st2).
Proof.
  revert st1 st2.
  induction acts as [|[v|e] acts IH]; intros st1 st2 Hag; simpl.
  - by constructor.
  - destruct (done_alike i x v st1 st2 Hag); [auto|by constructor].
  - by constructor.
Qed.

Lemma each_alike items st1 st2 :
  agree (length arr) R st1 st2 →
  alike (length arr) R (each ver arr iterator callback1 items st1)
    (each ver arr iterator callback2 items st2).
Proof.
  revert st1 st2.
  induction items as [|[i x] items IH]; intros st1 st2 Hag; simpl.
  - by constructor.
  - destruct (perform_alike i x (iterator x) st1 st2 Hag);
      [auto|by constructor].
Qed.

Lemma async_filter_alike w1 w2 :
  alike (length arr) R (async_filter ver arr iterator callback1 w1)
    (async_filter ver arr iterator callback2 w2).
Proof.
  unfold async_filter.
  destruct arr as [|a l] eqn:Harr.
  - constructor. split; [done|]. intros _. apply callbacks_agree.
  - rewrite <- Harr. apply each_alike. split; [done|].
    rewrite Harr. simpl. lia.
Qed.

(** When both runs return, the last run of the final callback decided both
    worlds. *)
Lemma async_filter_return_related w1 w2 u1 st1 u2 st2 :
  (∀ x, ∃ v, call_done v ∈ iterator x) →
  async_filter ver arr iterator callback1 w1 = Return u1 st1 →
  async_filter ver arr iterator callback2 w2 = Return u2 st2 →
  R st1.2 st2.2.
Proof.
  intros Hit H1 H2.
  pose proof (async_filter_alike w1 w2) as Hal.
  rewrite H1, H2 in Hal. inversion Hal as [u s1 s2 [Hpr HR]|]; subst.
  destruct (decide (arr = [])) as [Hnil|Hne].
  - apply HR. rewrite Hnil. simpl. lia.
  - apply HR.
    by eapply async_filter_return_reported in H1 as [Hc _].
Qed.
End two_runs.

(** *** Checks that report exactly once *)

Lemma enumerate_from_app {A} (i : nat) (l1 l2 : list A) :
  enumerate_from i (l1 ++ l2) =
  enumerate_from i l1 ++ enumerate_from (i + length l1) l2.
Proof.
  revert i. induction l1 as [|x l1 IH]; intros i; simpl.
  - by rewrite Nat.add_0_r.
  - rewrite IH. by replace (S i + length l1) with (i + S (length l1)) by lia.
Qed.

Lemma enumerate_from_values {A} (i : nat) (l : list A) :
  (enumerate_from i l).*2 = l.
Proof.
  revert i. induction l as [|x l IH]; intros i; simpl; [done|].
  by rewrite IH.
Qed.

Lemma sort_by_index_enumerate {A} (i : nat) (l : list A) :
  sort_by_index (enumerate_from i l) = enumerate_from i l.
Proof.
  revert i. induction l as [|x l IH]; intros i; [done|].
  unfold sort_by_index in *. simpl. rewrite IH.
  destruct l as [|y l]; simpl; [done|].
  replace (i <=? S i) with true by (symmetry; apply Nat.leb_le; lia).
  done.
Qed.

Section single_report.
Context {A W : Type}.
Variable ver : async_version.
Variable arr : list A.
Variable iterator : A → list action.
Variable callback : list A → W → W.

Lemma finished_at_length : finished ver (length arr) (length arr) = true.
Proof.
  destruct ver; simpl; [apply Nat.leb_le; lia | apply Nat.eqb_eq; lia].
Qed.

Lemma finished_before c :
  c < length arr → finished ver c (length arr) = false.
Proof.
  intros Hlt.
  destruct ver; simpl; [apply Nat.leb_gt; lia | apply Nat.eqb_neq; lia].
Qed.

Lemma each_single_report rest pre cl w :
  arr = pre ++ rest →
  rest ≠ [] →
  (∀ x, x ∈ rest → iterator x = [call_done true]) →
  (∀ i, i ∈ cl → i < length pre) →
  ∃ cl',
    each ver arr iterator callback (enumerate_from (length pre) rest)
      ({| results := enumerate_from 0 pre; completed := length pre;
          called := cl |}, w)
    = Return ()
        ({| results := enumerate_from 0 arr; completed := length arr;
            called := cl' |}, callback arr w).
Proof.
  revert pre cl.
  induction rest as [|x rest IH]; intros pre cl Harr Hne Hit Hcl; [done|].
  cbn [enumerate_from each].
  rewrite (Hit x) by (by left).
  cbn [perform]. unfold done. cbn [fst snd results completed called].
  rewrite bool_decide_eq_false_2, andb_false_r.
  2:{ intros Hin%Hcl. lia. }
  assert (enumerate_from 0 pre ++ [(length pre, x)]
          = enumerate_from 0 (pre ++ [x])) as ->.
  { by rewrite enumerate_from_app. }
  destruct rest as [|y rest].
  - assert (pre ++ [x] = arr) as -> by done.
    assert (S (length pre) = length arr) as ->.
    { rewrite Harr, length_app. simpl. lia. }
    rewrite finished_at_length.
    rewrite sort_by_index_enumerate, enumerate_from_values.
    cbn [each]. eauto.
  - rewrite finished_before.
    2:{ rewrite Harr, length_app. simpl. lia. }
    replace (S (length pre)) with (length (pre ++ [x]))
      by (rewrite length_app; simpl; lia).
    apply IH.
    + by rewrite <- app_assoc.
    + done.
    + intros z Hz. apply Hit. by right.
    + intros i [->|Hi%Hcl]%elem_of_cons; rewrite length_app; simpl; lia.
Qed.

(** When every iterator reports exactly once, with [true], the final
    callback runs exactly once, on all of [arr]. *)
Lemma async_filter_single_report w :
  (∀ x, x ∈ arr → iterator x = [call_done true]) →
  ∃ pr, async_filter ver arr iterator callback w
        = Return () (pr, callback arr w).
Proof.
  intros Hit. unfold async_filter.
  destruct arr as [|a l] eqn:Harr; [by eexists|].
  rewrite <- Harr.
  assert (arr ≠ []) as Hne by (by rewrite Harr).
  rewrite <- Harr in Hit.
  assert (∀ i : nat, i ∈ @nil nat → i < 0) as Hcl
    by (intros i Hi; by apply elem_of_nil in Hi).
  destruct (each_single_report arr [] [] w eq_refl Hne Hit Hcl) as [cl' Heq].
  eexists. exact Heq.
Qed.
End single_report.

(** ** The reset phase *)

Lemma own_keys_from_spec (a : list (option Pagelet)) (k i : nat) :
  i ∈ own_keys_from k a ↔ ∃ j p, i = k + j ∧ a !! j = Some (Some p).
Proof.
  revert k. induction a as [|[p|] a IH]; intros k; simpl.
  - split; [by intros ?%elem_of_nil|]. by intros (j & p & _ & ?).
  - rewrite elem_of_cons, IH. split.
    + intros [->|(j & q & -> & Hj)].
      * exists 0, p. split; [lia|done].
      * exists (S j), q. split; [lia|done].
    + intros ([|j] & q & -> & Hj).
      * left. lia.
      * right. exists j, q. split; [lia|done].
  - rewrite IH. split.
    + intros (j & q & -> & Hj). exists (S j), q. split; [lia|done].
    + intros ([|j] & q & -> & Hj); [done|].
      exists j, q. split; [lia|done].
Qed.

Lemma elem_of_own_keys (a : list (option Pagelet)) (i : nat) :
  i ∈ own_keys a ↔ ∃ p, a !! i = Some (Some p).
Proof.
  unfold own_keys. rewrite own_keys_from_spec. split.
  - intros (j & p & -> & Hj). by exists p.
  - intros (p & Hp). by exists i, p.
Qed.

Lemma own_keys_nil_iff (a : list (option Pagelet)) :
  own_keys a = [] ↔ ∀ i p, a !! i ≠ Some (Some p).
Proof.
  split.
  - intros Hnil i p Hi.
    assert (i ∈ own_keys a) as Hin by (apply elem_of_own_keys; eauto).
    rewrite Hnil in Hin. by apply elem_of_nil in Hin.
  - intros Hno. destruct (own_keys a) as [|i l] eqn:Hk; [done|].
    assert (i ∈ own_keys a) as Hin by (rewrite Hk; by left).
    apply elem_of_own_keys in Hin as [p Hp]. by destruct (Hno i p).
Qed.

Lemma lookup_delete_keys (a : list (option Pagelet)) (keys : list nat) (i : nat) :
  foldl delete_key a keys !! i =
  if bool_decide (i ∈ keys) then (λ _, None) <$> a !! i else a !! i.
Proof.
  revert a. induction keys as [|k keys IH]; intros a; cbn [foldl].
  - rewrite bool_decide_eq_false_2; [done|]. by intros ?%elem_of_nil.
  - rewrite IH. unfold delete_key.
    destruct (decide (i = k)) as [->|Hne].
    + rewrite (bool_decide_eq_true_2 (k ∈ k :: keys)) by (by left).
      destruct (decide (k < length a)) as [Hlt|Hge].
      * rewrite list_lookup_insert_eq by done.
        apply lookup_lt_is_Some in Hlt as [y ->].
        by case_bool_decide.
      * rewrite list_insert_ge by lia.
        rewrite (lookup_ge_None_2 a k) by lia. by case_bool_decide.
    + rewrite list_lookup_insert_ne by done.
      case_bool_decide as H1; case_bool_decide as H2; try done.
      * destruct H2. by right.
      * apply elem_of_cons in H2 as [?|?]; done.
Qed.

Lemma length_delete_keys (a : list (option Pagelet)) (keys : list nat) :
  length (foldl delete_key a keys) = length a.
Proof.
  revert a. induction keys as [|k keys IH]; intros a; simpl; [done|].
  rewrite IH. unfold delete_key. apply length_insert.
Qed.

(** Deleting every own key leaves only holes, and deleting more keys
    afterwards keeps it that way. *)
Lemma own_keys_delete_all (a : list (option Pagelet)) (more : list nat) :
  own_keys (foldl delete_key (foldl delete_key a (own_keys a)) more) = [].
Proof.
  apply own_keys_nil_iff. intros i p.
  rewrite !lookup_delete_keys.
  destruct (a !! i) as [[q|]|] eqn:Hi; simpl.
  - rewrite (bool_decide_eq_true_2 (i ∈ own_keys a))
      by (apply elem_of_own_keys; eauto).
    simpl. by case_bool_decide.
  - by repeat case_bool_decide.
  - by repeat case_bool_decide.
Qed.

(** [for (key in m) delete m[key]] empties a map. *)
Lemma delete_every_key {V} (m : gmap string V) :
  map_fold (λ key _ c, delete key c) m m = ∅.
Proof.
  assert (∀ m0 : gmap string V,
    ∀ k, map_fold (λ key _ c, delete key c) m0 m !! k =
         match m !! k with Some _ => None | None => m0 !! k end) as Hgen.
  { intros m0.
    apply (map_fold_weak_ind
      (λ r (m' : gmap string V),
         ∀ k, r !! k = match m' !! k with Some _ => None | None => m0 !! k end)).
    - intros k. by rewrite lookup_empty.
    - intros i x m' r Hi IH k.
      destruct (decide (k = i)) as [->|Hne].
      + by rewrite lookup_delete_eq, lookup_insert_eq.
      + by rewrite lookup_delete_ne, lookup_insert_ne, IH. }
  apply map_eq. intros k. rewrite Hgen, lookup_empty.
  by destruct (m !! k).
Qed.

Lemma reset_connections page : connections (reset page) = ∅.
Proof. unfold reset. simpl. apply delete_every_key. Qed.

Lemma reset_listeners page : listeners (reset page) = ∅.
Proof. done. Qed.

Lemma reset_conditional page : conditional (reset page) = [].
Proof. done. Qed.

Lemma reset_enabled page : own_keys (enabled (reset page)) = [].
Proof. unfold reset. simpl. apply own_keys_delete_all. Qed.

(** The third loop deletes from [this.enabled] again: [this.disabled] is
    never touched. *)
Lemma reset_disabled page : disabled (reset page) = disabled page.
Proof. done. Qed.

(** What the reset phase does empty. *)
Lemma reset_clears page :
  connections (reset page) = ∅ ∧
  conditional (reset page) = [] ∧
  is_empty (enabled (reset page)) = true ∧
  listeners (reset page) = ∅.
Proof.
  repeat split.
  - apply reset_connections.
  - unfold is_empty. apply bool_decide_eq_true_2, reset_enabled.
Qed.

Lemma reset_self page : self (reset page) = self page.
Proof. done. Qed.

Lemma reset_pagelets page : pagelets (reset page) = pagelets page.
Proof. done. Qed.

(** ** Discovery *)

Lemma acceptance_frame pagelets allowed page0 page :
  frame page0 page → frame page0 (acceptance pagelets allowed page).
Proof. done. Qed.

Lemma discover_frame ver req page :
  frame page (state_of (discover ver req page)).
Proof.
  unfold discover. destruct (pagelets page) as [|fs] eqn:Hps; [done|].
  pose proof (async_filter_keeps ver (allocate page <$> fs) (rejection req)
    (acceptance (allocate page <$> fs)) (frame page)
    (λ allowed w, acceptance_frame _ allowed page w) page) as Hk.
  destruct (async_filter _ _ _ _ _); simpl in *; by apply Hk.
Qed.

Lemma rejection_reports req pagelet : ∃ v, call_done v ∈ rejection req pagelet.
Proof.
  exists true. unfold rejection.
  destruct (authorize pagelet) as [check|]; [|by left].
  apply elem_of_app. right. by left.
Qed.

Lemma rejection_deferred req pagelet :
  deferred req pagelet = true → rejection req pagelet = [call_done true].
Proof.
  unfold deferred, rejection.
  destruct (authorize pagelet) as [check|]; [|done].
  by destruct (now (check req)).
Qed.

(** With deferred checks every pagelet is passed to [acceptance] as
    allowed, whatever its check reports later. *)
Lemma discover_deferred ver req page fs :
  pagelets page = array fs →
  forallb (deferred req) (allocate page <$> fs) = true →
  discover ver req page =
  Return undefined
    (acceptance (allocate page <$> fs) (allocate page <$> fs) page).
Proof.
  intros Hps Hd. unfold discover. rewrite Hps.
  destruct (async_filter_single_report ver (allocate page <$> fs)
    (rejection req) (acceptance (allocate page <$> fs)) page) as [pr ->];
    [|done].
  intros x Hx%list_elem_of_In. apply rejection_deferred.
  rewrite forallb_forall in Hd. by apply Hd.
Qed.

(** The partition a returning [discover] leaves depends on the pagelets
    and the request only. *)
Lemma discover_partition_determined ver req p q v1 p' v2 q' :
  pagelets p = pagelets q →
  discover ver req p = Return v1 p' →
  discover ver req q = Return v2 q' →
  enabled p' = enabled q' ∧ disabled p' = disabled q'.
Proof.
  unfold discover. intros <-.
  destruct (pagelets p) as [|fs]; [discriminate|].
  unfold allocate.
  destruct (async_filter ver _ _ _ p) as [u1 st1|] eqn:H1; [|discriminate].
  destruct (async_filter ver _ _ _ q) as [u2 st2|] eqn:H2; [|discriminate].
  intros [= _ <-] [= _ <-].
  eapply (async_filter_return_related ver _ _ _ _
            (λ w1 w2, enabled w1 = enabled w2 ∧ disabled w1 = disabled w2));
    [| apply rejection_reports | exact H1 | exact H2].
  done.
Qed.

(** Callback calls that arrive after [discover] returned change nothing. *)
Lemma late_calls_inert ver req page fs u st calls :
  async_filter ver (allocate page <$> fs) (rejection req)
    (acceptance (allocate page <$> fs)) page = Return u st →
  Forall (λ c : nat * Pagelet * bool, c.1.1 < length fs) calls →
  (foldl (settle ver (allocate page <$> fs) (acceptance (allocate page <$> fs)))
     st calls).2 = st.2.
Proof.
  intros Hret Hcalls.
  destruct (decide (allocate page <$> fs = [])) as [Hnil|Hne].
  { apply fmap_nil_inv in Hnil. subst fs.
    destruct calls as [|c calls]; [done|].
    apply Forall_cons in Hcalls as [Hc _]. simpl in Hc. lia. }
  pose proof (async_filter_return_reported ver _ _ _ page u st Hne
                (rejection_reports req) Hret) as Hrep.
  clear Hret. revert st Hrep.
  induction calls as [|c calls IH]; intros st Hrep; [done|].
  apply Forall_cons in Hcalls as [Hc Hcalls]. simpl.
  destruct (settle_inert ver (allocate page <$> fs)
              (acceptance (allocate page <$> fs)) st c Hrep) as [Hw Hrep'].
  { by rewrite length_fmap. }
  rewrite IH by done. done.
Qed.

Section quiet_prefix.
Context {A W : Type}.
Variable ver : async_version.
Variable arr : list A.
Variable iterator : A → list action.
Variable callback : list A → W → W.

Lemma each_app items1 items2 st :
  each ver arr iterator callback (items1 ++ items2) st =
  match each ver arr iterator callback items1 st with
  | Return _ st' => each ver arr iterator callback items2 st'
  | Throw e st' => Throw e st'
  end.
Proof.
  revert st. induction items1 as [|[i x] items1 IH]; intros st; simpl; [done|].
  destruct (perform ver arr callback i x (iterator x) st); [apply IH|done].
Qed.

(** Items that report once, while more items are still to come, do not
    make the final callback run. *)
Lemma each_quiet pre k pr w :
  (∀ x, x ∈ pre → iterator x = [call_done true]) →
  completed pr + length pre < length arr →
  (∀ i, i ∈ called pr → i < k) →
  ∃ pr', each ver arr iterator callback (enumerate_from k pre) (pr, w)
         = Return () (pr', w).
Proof.
  revert k pr. induction pre as [|x pre IH]; intros k pr Hit Hlen Hcl.
  - by eexists.
  - cbn [enumerate_from each]. rewrite (Hit x) by (by left).
    cbn [perform]. unfold done. cbn [fst snd completed called].
    rewrite bool_decide_eq_false_2, andb_false_r.
    2:{ intros Hin%Hcl. lia. }
    rewrite (finished_before ver arr) by (simpl in Hlen; lia).
    apply IH.
    + intros y Hy. apply Hit. by right.
    + simpl in *. lia.
    + simpl. intros i [->|Hi%Hcl]%elem_of_cons; lia.
Qed.
End quiet_prefix.

(** The first check that throws, after pagelets whose checks are
    deferred, ends [discover] with its exception and with the page as it
    was. *)
Lemma discover_first_throw ver req page fs pre x post check e acts :
  pagelets page = array fs →
  allocate page <$> fs = pre ++ x :: post →
  forallb (deferred req) pre = true →
  authorize x = Some check →
  now (check req) = throw e :: acts →
  discover ver req page = Throw e page.
Proof.
  intros Hps Harr Hd Hx Hnow. unfold discover. rewrite Hps.
  unfold async_filter.
  destruct (allocate page <$> fs) as [|a l] eqn:Hal.
  { by destruct pre. }
  rewrite <- Hal. rewrite <- Hal in Harr. clear Hal a l.
  replace (enumerate_from 0 (allocate page <$> fs))
    with (enumerate_from 0 pre ++ enumerate_from (0 + length pre) (x :: post))
    by (by rewrite Harr, enumerate_from_app).
  rewrite each_app.
  destruct (each_quiet ver (allocate page <$> fs) (rejection req)
              (acceptance (allocate page <$> fs)) pre 0 start page)
    as [pr' ->].
  - intros y Hy%list_elem_of_In. apply rejection_deferred.
    rewrite forallb_forall in Hd. by apply Hd.
  - rewrite Harr, length_app. simpl. lia.
  - intros i Hi. by apply elem_of_nil in Hi.
  - cbn [enumerate_from each]. unfold rejection. rewrite Hx, Hnow. done.
Qed.

(** *** Checks that throw *)

Lemma perform_throws {A W} ver (arr : list A) (callback : list A → W → W)
    i x acts st :
  existsb is_throw acts = true →
  returns (perform ver arr callback i x acts st) = false.
Proof.
  revert st. induction acts as [|[v|e] acts IH]; intros st; simpl.
  - discriminate.
  - intros Hex. destruct (done ver arr callback i x v st); simpl; auto.
  - done.
Qed.

Lemma each_throws {A W} ver (arr : list A) iterator
    (callback : list A → W → W) k items st :
  existsb (λ x, existsb is_throw (iterator x)) items = true →
  returns (each ver arr iterator callback (enumerate_from k items) st) = false.
Proof.
  revert k st. induction items as [|x items IH]; intros k st; simpl.
  - discriminate.
  - intros [Hx|Hrest]%orb_true_iff.
    + pose proof (perform_throws ver arr callback k x (iterator x) st Hx) as Hp.
      by destruct (perform ver arr callback k x (iterator x) st).
    + destruct (perform ver arr callback k x (iterator x) st); simpl; auto.
Qed.

Lemma rejection_throws req pagelet :
  throws req pagelet = true →
  existsb is_throw (rejection req pagelet) = true.
Proof.
  unfold throws, rejection.
  destruct (authorize pagelet) as [check|]; [|discriminate].
  intros Hex. rewrite existsb_app, Hex. done.
Qed.

(** ** The claims of the specification *)

(** C1 does not hold of [discover]: a pagelet whose authorization check
    answers [false] is handed to [acceptance] as allowed, because
    [rejection] calls [done(true)] whatever the check does.  Here the only
    pagelet of the page is denied in a later turn of the event loop; it is
    in [enabled], not in [disabled], when [discover] returns, and still
    after its answer has arrived. *)
Theorem denied_pagelet_is_enabled (ver : async_version) (req : jsval) :
  ∃ page',
    discover ver req (page_of [answers_later 3 false]) = Return undefined page' ∧
    members (enabled page') = [3] ∧
    members (disabled page') = [] ∧
    discover_settled ver req (page_of [answers_later 3 false]) = page'.
Proof.
  destruct ver; eexists; (split; [reflexivity|]); by repeat split.
Qed.

(** C2 does not hold of [acceptance]: [!!allowed.indexOf(pagelet)] is
    false only for the pagelet at index 0 of [allowed], so with two
    pagelets that both pass, the second is in [enabled] and in
    [disabled]. *)
Theorem partition_overlaps (ver : async_version) (req : jsval) :
  ∃ page',
    discover ver req (page_of [unchecked 1; unchecked 2])
      = Return undefined page' ∧
    members (enabled page') = [1; 2] ∧
    members (disabled page') = [2].
Proof.
  destruct ver; eexists; (split; [reflexivity|]); by split.
Qed.

(** C3 does not hold of the reset phase: its third loop deletes from
    [this.enabled] a second time, so [this.disabled] keeps what the last
    request left in it.  Here the page has served a request with two
    unchecked pagelets. *)
Theorem reset_keeps_disabled :
  let used := state_of (discover guarded undefined
                          (page_of [unchecked 1; unchecked 2])) in
  members (disabled used) = [2] ∧
  members (disabled (reset used)) = [2] ∧
  is_empty (disabled (reset used)) = false ∧
  is_empty (enabled (reset used)) = true.
Proof. by repeat split. Qed.

(** A check that throws ends [discover] with an exception, wherever the
    pagelet stands and whatever the checks before it did. *)
Lemma discover_aborts ver req page fs :
  pagelets page = array fs →
  existsb (throws req) (allocate page <$> fs) = true →
  ∃ e page', discover ver req page = Throw e page'.
Proof.
  intros Hps Hex. unfold discover. rewrite Hps.
  assert (returns (async_filter ver (allocate page <$> fs) (rejection req)
            (acceptance (allocate page <$> fs)) page) = false) as Hret.
  { unfold async_filter.
    destruct (allocate page <$> fs) as [|a l] eqn:Harr; [discriminate|].
    rewrite <- Harr. rewrite <- Harr in Hex. apply each_throws.
    rewrite existsb_exists in *. destruct Hex as (x & Hin & Hx).
    exists x. split; [done|]. by apply rejection_throws. }
  destruct (async_filter _ _ _ _ _) as [u st|e st]; [discriminate|].
  eauto.
Qed.

(** C4, as amended: when the authorization check of a pagelet throws,
    nothing contains the failure: [discover] throws to its caller instead
    of completing.  When the check throws before it has called [done], and
    the pagelets before it have no check or a deferred one, [discover]
    throws the exception of that check and leaves the page, [enabled] and
    [disabled] included, as it was. *)
Theorem discover_throws_when_check_throws ver req page fs pre x post :
  pagelets page = array fs →
  allocate page <$> fs = pre ++ x :: post →
  throws req x = true →
  (∃ e' page', discover ver req page = Throw e' page') ∧
  (∀ check e acts,
     authorize x = Some check →
     now (check req) = throw e :: acts →
     forallb (deferred req) pre = true →
     discover ver req page = Throw e page).
Proof.
  intros Hps Harr Hx. split.
  - apply (discover_aborts ver req page fs Hps).
    rewrite Harr, existsb_app. simpl. by rewrite Hx, orb_true_r.
  - intros check e acts Hcheck Hnow Hd. by eapply discover_first_throw.
Qed.

(** C4 as stated fails: with an unchecked pagelet and one whose check
    throws, [discover] throws and leaves the page as it was, so the
    throwing pagelet is not in [disabled] and the unchecked one is not in
    [enabled]. *)
Lemma throwing_check_aborts_discovery :
  discover guarded (object 1) (page_of [unchecked 1; refuses 4])
    = Throw (Error "denied") (page_of [unchecked 1; refuses 4]) ∧
  discover unguarded (object 1) (page_of [unchecked 1; refuses 4])
    = Throw (Error "denied") (page_of [unchecked 1; refuses 4]) ∧
  members (disabled (page_of [unchecked 1; refuses 4])) = [] ∧
  members (enabled (page_of [unchecked 1; refuses 4])) = [].
Proof. by repeat split. Qed.

(** The theorem at work on a page with an unchecked pagelet before the
    one whose check throws. *)
Lemma discover_throws_when_check_throws_witness :
  (∃ e' page',
     discover guarded (object 1) (page_of [unchecked 1; refuses 4])
       = Throw e' page') ∧
  discover guarded (object 1) (page_of [unchecked 1; refuses 4])
    = Throw (Error "denied") (page_of [unchecked 1; refuses 4]).
Proof.
  destruct (discover_throws_when_check_throws guarded (object 1)
              (page_of [unchecked 1; refuses 4])
              [Build_Factory (unchecked 1); Build_Factory (refuses 4)]
              [unchecked 1] (refuses 4) [] eq_refl eq_refl eq_refl)
    as [Hthrows Hfirst].
  split; [exact Hthrows|].
  apply (Hfirst (λ _, {| now := [throw (Error "denied")]; later := [] |})
           (Error "denied") []); reflexivity.
Defined.

(** Why the second part of C4, as amended, asks for a check that throws
    before it has called [done]: a check that answers and then throws
    completes the count with its answer, so [acceptance] has run when the
    exception leaves [discover], and the page is no longer as it was. *)
Lemma throw_after_answer_changes_page (ver : async_version) :
  ∃ page',
    discover ver (object 1) (page_of [unchecked 1; answers_then_throws 4 false])
      = Throw (Error "denied") page' ∧
    members (enabled page') = [1] ∧
    members (disabled page') = [4].
Proof.
  destruct ver; eexists; (split; [reflexivity|]); by split.
Qed.

(** C5 does not hold of [configure]: it calls [this.discover()] without an
    argument, so the checks see [undefined] instead of the request.  A
    check that reads the request works when [discover] is given the
    request, and throws a [TypeError] under [configure]. *)
Theorem configure_drops_request (ver : async_version) :
  returns (discover ver (object 7) (reset (page_of [reads_request 2]))) = true ∧
  configure ver (object 7) (object 8) (page_of [reads_request 2])
    = Throw TypeError (reset (page_of [reads_request 2])).
Proof. by destruct ver. Qed.

(** [configure] does not depend on its arguments at all. *)
Lemma configure_ignores_arguments ver req res req' res' page :
  configure ver req res page = configure ver req' res' page.
Proof. done. Qed.




(** A check that answers [true] before it returns has the same effect:
    [rejection] calls the callback twice for its pagelet.  Under the guard
    the second call throws; without it the pagelet is pushed twice and the
    final callback runs one call early, before the unchecked pagelet has
    reported. *)
Lemma early_answer_depends_on_library :
  discover guarded (object 1) (page_of [answers_at_once 5 true; unchecked 1])
    = Throw (Error "Callback was already called.")
        (page_of [answers_at_once 5 true; unchecked 1]) ∧
  returns (discover unguarded (object 1)
             (page_of [answers_at_once 5 true; unchecked 1])) = true ∧
  members (enabled (state_of (discover unguarded (object 1)
             (page_of [answers_at_once 5 true; unchecked 1])))) = [5; 5] ∧
  members (disabled (state_of (discover unguarded (object 1)
             (page_of [answers_at_once 5 true; unchecked 1])))) = [1].
Proof. by repeat split. Qed.

(** C7: after [configure] returns, [connections] is empty and no listener
    that was attached before the call is attached any more. *)
Theorem configure_detaches ver req res page v page' :
  configure ver req res page = Return v page' →
  connections page' = ∅ ∧
  ∀ event fn, attached page event fn → ¬ attached page' event fn.
Proof.
  unfold configure. intros Hc.
  pose proof (discover_frame ver undefined (reset page)) as Hf.
  destruct (discover ver undefined (reset page)) as [u p|]; [|discriminate].
  injection Hc as <- <-.
  destruct Hf as (_ & Hconn & _ & _ & Hlis). cbn [state_of] in Hconn, Hlis.
  split.
  - by rewrite Hconn, reset_connections.
  - intros event fn _ (fns & Hev & _).
    rewrite Hlis, reset_listeners, lookup_empty in Hev. discriminate.
Qed.

(** The theorem at work on a page with an open connection and a listener. *)
Lemma configure_detaches_witness :
  attached (busy_page [unchecked 1]) "end" 7 ∧
  ∃ v page',
    configure guarded (object 7) (object 8) (busy_page [unchecked 1])
      = Return v page' ∧
    connections page' = ∅ ∧
    ¬ attached page' "end" 7.
Proof.
  assert (attached (busy_page [unchecked 1]) "end" 7) as Hat.
  { exists [7]. split; [reflexivity|left]. }
  split; [exact Hat|].
  eexists _, _. split; [reflexivity|].
  destruct (configure_detaches guarded (object 7) (object 8)
              (busy_page [unchecked 1]) _ _ eq_refl) as [Hconn Hlis].
  split; [exact Hconn|]. by apply Hlis.
Defined.

(** C8: two calls of [configure] in a row leave the same enabled/disabled
    partition. *)
Theorem configure_twice_same_partition
    ver req1 res1 req2 res2 page v1 page1 v2 page2 :
  configure ver req1 res1 page = Return v1 page1 →
  configure ver req2 res2 page1 = Return v2 page2 →
  enabled page2 = enabled page1 ∧ disabled page2 = disabled page1.
Proof.
  unfold configure. intros H1 H2.
  pose proof (discover_frame ver undefined (reset page)) as Hf.
  destruct (discover ver undefined (reset page)) as [u1 p1|] eqn:Hd1;
    [|discriminate].
  injection H1 as <- <-.
  destruct (discover ver undefined (reset p1)) as [u2 p2|] eqn:Hd2;
    [|discriminate].
  injection H2 as <- <-.
  destruct Hf as (_ & _ & _ & Hps & _). cbn [state_of] in Hps.
  eapply discover_partition_determined; [|exact Hd2|exact Hd1].
  by rewrite !reset_pagelets.
Qed.

(** The theorem at work on a page with three pagelets. *)
Lemma configure_twice_same_partition_witness :
  ∃ v1 page1 v2 page2,
    configure unguarded (object 7) (object 8)
      (page_of [unchecked 1; answers_later 2 true; answers_later 3 false])
      = Return v1 page1 ∧
    configure unguarded (object 9) (object 10) page1 = Return v2 page2 ∧
    enabled page2 = enabled page1 ∧ disabled page2 = disabled page1.
Proof.
  eexists _, _, _, _.
  split; [vm_compute; reflexivity|]. split; [vm_compute; reflexivity|].
  eapply (configure_twice_same_partition unguarded (object 7) (object 8)
            (object 9) (object 10)
            (page_of [unchecked 1; answers_later 2 true; answers_later 3 false]));
    vm_compute; reflexivity.
Defined.

(** C9: when [configure] returns, it returns the page it was called on. *)
Theorem configure_returns_receiver ver req res page v page' :
  configure ver req res page = Return v page' →
  v = object (self page) ∧ self page' = self page.
Proof.
  unfold configure. intros Hc.
  pose proof (discover_frame ver undefined (reset page)) as Hf.
  destruct (discover ver undefined (reset page)) as [u p|]; [|discriminate].
  injection Hc as <- <-.
  destruct Hf as (Hself & _). cbn [state_of] in Hself.
  by rewrite Hself.
Qed.

(** The theorem at work on a page with two pagelets. *)
Lemma configure_returns_receiver_witness :
  ∃ v page',
    configure guarded (object 7) (object 8)
      (page_of [unchecked 1; answers_later 2 true]) = Return v page' ∧
    v = object (self (page_of [unchecked 1; answers_later 2 true])) ∧
    self page' = self (page_of [unchecked 1; answers_later 2 true]).
Proof.
  eexists _, _. split; [reflexivity|].
  apply (configure_returns_receiver guarded (object 7) (object 8)
           (page_of [unchecked 1; answers_later 2 true])).
  vm_compute; reflexivity.
Defined.

(** [configure] does return when the page's pagelets are an array and no
    check calls back or throws before it returns. *)
Lemma configure_returns_when_deferred ver req res page fs :
  pagelets page = array fs →
  forallb (deferred undefined) (allocate page <$> fs) = true →
  configure ver req res page =
  Return (object (self page))
    (acceptance (allocate page <$> fs) (allocate page <$> fs) (reset page)).
Proof.
  intros Hps Hd. unfold configure.
  by rewrite (discover_deferred ver undefined (reset page) fs).
Qed.

(** C10: on a page whose [pagelets] is still the default object [{}], [discover]
    throws a [TypeError], and so does [configure]; no partition is
    produced. *)
Theorem discover_needs_array ver req res page :
  pagelets page = empty_object →
  discover ver req page = Throw TypeError page ∧
  configure ver req res page = Throw TypeError (reset page).
Proof.
  intros Hps. unfold configure, discover.
  rewrite reset_pagelets, Hps. done.
Qed.

(** The theorem at work on a page fresh from the constructor. *)
Lemma discover_needs_array_witness :
  discover guarded (object 7) (new_Page 0 empty_object)
    = Throw TypeError (new_Page 0 empty_object) ∧
  configure guarded (object 7) (object 8) (new_Page 0 empty_object)
    = Throw TypeError (reset (new_Page 0 empty_object)).
Proof.
  apply (discover_needs_array guarded (object 7) (object 8)
           (new_Page 0 empty_object)).
  reflexivity.
Defined.

(** * Further properties of the page *)

(** ** [acceptance] *)

Lemma index_from_range (i : Z) (l : list Pagelet) (x : Pagelet) :
  index_from i l x = (-1)%Z ∨ (i ≤ index_from i l x)%Z.
Proof.
  revert i. induction l as [|y l IH]; intros i; simpl; [by left|].
  destruct (ident y =? ident x); [right; lia|].
  destruct (IH (i + 1)%Z) as [->|Hle]; [by left|right; lia].
Qed.

(** [!!allowed.indexOf(pagelet)] is false for the pagelet that comes first
    in [allowed], and for no other. *)
Lemma truthy_indexOf (allowed : list Pagelet) (p : Pagelet) :
  truthy (indexOf allowed p) =
  match allowed with
  | [] => true
  | a :: _ => negb (ident a =? ident p)
  end.
Proof.
  unfold truthy, indexOf. destruct allowed as [|a rest]; simpl; [done|].
  destruct (ident a =? ident p); [done|].
  destruct (index_from_range (0 + 1)%Z rest p) as [->|Hle]; [done|].
  simpl. apply negb_true_iff, Z.eqb_neq. lia.
Qed.

Lemma elem_of_Some_fmap (p : Pagelet) (l : list Pagelet) :
  Some p ∈ Some <$> l ↔ p ∈ l.
Proof.
  rewrite list_elem_of_fmap. split.
  - by intros (q & [= ->] & Hq).
  - intros Hp. by exists p.
Qed.

Lemma acceptance_disabled_iff pagelets allowed page p :
  Some p ∈ disabled (acceptance pagelets allowed page) ↔
  p ∈ pagelets ∧ ∀ a, head allowed = Some a → ident a ≠ ident p.
Proof.
  unfold acceptance. simpl.
  rewrite elem_of_Some_fmap, list_elem_of_In, filter_In, <- list_elem_of_In.
  rewrite truthy_indexOf.
  destruct allowed as [|a rest]; simpl.
  - split; [intros [Hp _]|intros [Hp _]]; by split.
  - rewrite negb_true_iff, Nat.eqb_neq. split.
    + intros [Hp Hne]. split; [done|]. by intros ? [= <-].
    + intros [Hp Hne]. split; [done|]. by apply Hne.
Qed.

(** [acceptance] puts in [disabled] every pagelet of the page except the
    one that comes first in [allowed]; the other allowed pagelets are
    disabled as well. *)
Theorem acceptance_disables_all_but_first pagelets allowed page p :
  Some p ∈ disabled (acceptance pagelets allowed page) ↔
  p ∈ pagelets ∧ ∀ a, head allowed = Some a → ident a ≠ ident p.
Proof. apply acceptance_disabled_iff. Qed.

(** ** The reset phase, continued *)

(** [delete] leaves holes: after the reset phase [enabled] has the length
    it had, and every index below it is a hole. *)
Theorem reset_leaves_holes page :
  length (enabled (reset page)) = length (enabled page) ∧
  ∀ i, i < length (enabled page) → enabled (reset page) !! i = Some None.
Proof.
  unfold reset. cbn [enabled set_enabled set_connections set_conditional
    removeAllListeners set_listeners disabled].
  split.
  - by rewrite !length_delete_keys.
  - intros i Hi. rewrite !lookup_delete_keys.
    apply lookup_lt_is_Some in Hi as [[p|] Hp]; rewrite Hp.
    + rewrite (bool_decide_eq_true_2 (i ∈ own_keys (enabled page)))
        by (apply elem_of_own_keys; eauto).
      simpl. by case_bool_decide.
    + by repeat case_bool_decide.
Qed.

(** The theorem at work on a page that has served a request. *)
Lemma reset_leaves_holes_witness :
  length (enabled (reset (state_of (discover guarded undefined
            (page_of [unchecked 1; unchecked 2]))))) = 2 ∧
  enabled (reset (state_of (discover guarded undefined
            (page_of [unchecked 1; unchecked 2])))) !! 1 = Some None.
Proof.
  destruct (reset_leaves_holes
              (state_of (discover guarded undefined
                           (page_of [unchecked 1; unchecked 2]))))
    as [Hlen Hhole].
  split; [exact Hlen|]. apply (Hhole 1). vm_compute. lia.
Defined.

Lemma delete_keys_of_holes (a : list (option Pagelet)) (keys : list nat) :
  (∀ i p, a !! i ≠ Some (Some p)) →
  foldl delete_key a keys = a.
Proof.
  intros Hholes. apply list_eq. intros i.
  rewrite lookup_delete_keys.
  case_bool_decide; [|done].
  destruct (a !! i) as [[p|]|] eqn:Hi; simpl; [|done|done].
  by destruct (Hholes i p).
Qed.

(** Resetting a page that has just been reset changes nothing. *)
Theorem reset_idempotent page : reset (reset page) = reset page.
Proof.
  assert (enabled (reset (reset page)) = enabled (reset page)) as Hen.
  { pose proof (reset_enabled page) as Hk.
    unfold reset at 1. cbn [enabled set_enabled set_connections
      set_conditional removeAllListeners set_listeners disabled].
    rewrite Hk. cbn [foldl].
    apply delete_keys_of_holes. by apply own_keys_nil_iff. }
  assert (connections (reset (reset page)) = connections (reset page)) as Hco.
  { by rewrite !reset_connections. }
  destruct (reset page) as [s c cd d e ps l] eqn:Hr.
  unfold reset in Hen, Hco |- *. simpl in *.
  rewrite Hen, Hco.
  assert (cd = []) as -> by (by rewrite <- (reset_conditional page), Hr).
  assert (l = ∅) as -> by (by rewrite <- (reset_listeners page), Hr).
  done.
Qed.

(** ** Discovery, continued *)

(** [discover] assigns [enabled] and [disabled] and nothing else, whether
    it returns or throws. *)
Theorem discover_changes_only_partition ver req page :
  self (state_of (discover ver req page)) = self page ∧
  connections (state_of (discover ver req page)) = connections page ∧
  conditional (state_of (discover ver req page)) = conditional page ∧
  pagelets (state_of (discover ver req page)) = pagelets page ∧
  listeners (state_of (discover ver req page)) = listeners page.
Proof. apply discover_frame. Qed.

(** ** [configure], continued *)

(** The reset phase runs before discovery: also when [configure] throws,
    the connections, the conditional pagelets and the listeners are gone,
    and the page keeps its identity and its pagelets. *)
Theorem configure_resets_even_when_it_throws ver req res page :
  connections (state_of (configure ver req res page)) = ∅ ∧
  conditional (state_of (configure ver req res page)) = [] ∧
  listeners (state_of (configure ver req res page)) = ∅ ∧
  pagelets (state_of (configure ver req res page)) = pagelets page ∧
  self (state_of (configure ver req res page)) = self page.
Proof.
  pose proof (discover_frame ver undefined (reset page))
    as (Hs & Hco & Hcd & Hps & Hl).
  assert (state_of (configure ver req res page)
          = state_of (discover ver undefined (reset page))) as ->.
  { unfold configure. by destruct (discover ver undefined (reset page)). }
  rewrite Hs, Hco, Hcd, Hps, Hl.
  by rewrite reset_connections.
Qed.

(** *** When [discover] returns *)

Section guarded_runs.
Context {A W : Type}.
Variable arr : list A.
Variable iterator : A → list action.
Variable callback : list A → W → W.

(** Under the guard, an index that has reported cannot take another
    action. *)
Lemma perform_guarded_again i x acts st :
  i ∈ called st.1 → acts ≠ [] →
  returns (perform guarded arr callback i x acts st) = false.
Proof.
  intros Hin Hne. destruct acts as [|[v|e] acts]; [done| |done].
  cbn [perform]. unfold done. cbn [is_guarded andb].
  by rewrite bool_decide_eq_true_2.
Qed.

Lemma perform_call_done ver i x v acts st :
  perform ver arr callback i x (call_done v :: acts) st =
  match done ver arr callback i x v st with
  | Return _ st' => perform ver arr callback i x acts st'
  | Throw e st' => Throw e st'
  end.
Proof. done. Qed.

Lemma perform_guarded_twice i x a1 a2 acts st :
  returns (perform guarded arr callback i x (a1 :: a2 :: acts) st) = false.
Proof.
  destruct a1 as [v|e]; [|done]. rewrite perform_call_done.
  destruct (done guarded arr callback i x v st) as [u st'|] eqn:Hd; [|done].
  apply perform_guarded_again; [|done].
  apply done_return_inv in Hd as (_ & -> & _). by left.
Qed.

Lemma each_guarded_twice k items st :
  existsb (λ x, 2 <=? length (iterator x)) items = true →
  returns (each guarded arr iterator callback (enumerate_from k items) st)
  = false.
Proof.
  revert k st. induction items as [|x items IH]; intros k st; simpl.
  - discriminate.
  - intros [Hx|Hrest]%orb_true_iff.
    + destruct (iterator x) as [|a1 [|a2 acts]]; [done|done|].
      pose proof (perform_guarded_twice k x a1 a2 acts st) as Hp.
      by destruct (perform guarded arr callback k x (a1 :: a2 :: acts) st).
    + destruct (perform guarded arr callback k x (iterator x) st);
        simpl; auto.
Qed.
End guarded_runs.

Section unguarded_runs.
Context {A W : Type}.
Variable arr : list A.
Variable iterator : A → list action.
Variable callback : list A → W → W.

(** Without the guard only a [throw] ends a run. *)
Lemma perform_unguarded_returns i x acts st :
  returns (perform unguarded arr callback i x acts st)
  = negb (existsb is_throw acts).
Proof.
  revert st. induction acts as [|[v|e] acts IH]; intros st; simpl; [done| |done].
  unfold done. cbn [is_guarded andb].
  destruct (finished _ _ _); apply IH.
Qed.

Lemma each_unguarded_returns k items st :
  returns (each unguarded arr iterator callback (enumerate_from k items) st)
  = negb (existsb (λ x, existsb is_throw (iterator x)) items).
Proof.
  revert k st. induction items as [|x items IH]; intros k st; simpl; [done|].
  pose proof (perform_unguarded_returns k x (iterator x) st) as Hp.
  destruct (perform unguarded arr callback k x (iterator x) st);
    simpl in Hp; symmetry in Hp.
  - apply negb_true_iff in Hp. rewrite Hp. apply IH.
  - apply negb_false_iff in Hp. by rewrite Hp.
Qed.
End unguarded_runs.

Lemma rejection_long req pagelet :
  (2 <=? length (rejection req pagelet)) = negb (deferred req pagelet).
Proof.
  unfold rejection, deferred.
  destruct (authorize pagelet) as [check|]; [|done].
  destruct (now (check req)) as [|a acts]; [done|].
  cbn [negb]. apply Nat.leb_le.
  rewrite length_app. simpl. lia.
Qed.

Lemma rejection_is_throw req pagelet :
  existsb is_throw (rejection req pagelet) = throws req pagelet.
Proof.
  unfold rejection, throws.
  destruct (authorize pagelet) as [check|]; [|done].
  rewrite existsb_app. simpl. by rewrite orb_false_r.
Qed.

Lemma existsb_ext_eq {A} (f g : A → bool) (l : list A) :
  (∀ x, f x = g x) → existsb f l = existsb g l.
Proof. intros Hfg. induction l as [|x l IH]; simpl; [done|]. by rewrite Hfg, IH. Qed.

Lemma existsb_negb_forallb {A} (f : A → bool) (l : list A) :
  existsb (λ x, negb (f x)) l = negb (forallb f l).
Proof.
  induction l as [|x l IH]; simpl; [done|].
  rewrite IH. by destruct (f x).
Qed.

(** When an item's callback may run only once, [discover] returns exactly
    when no check answers or throws before it returns; every other page
    makes it throw. *)
Theorem guarded_discover_returns req page fs :
  pagelets page = array fs →
  returns (discover guarded req page)
  = forallb (deferred req) (allocate page <$> fs).
Proof.
  intros Hps.
  destruct (forallb (deferred req) (allocate page <$> fs)) eqn:Hd.
  - by rewrite (discover_deferred guarded req page fs Hps Hd).
  - unfold discover. rewrite Hps.
    assert (returns (async_filter guarded (allocate page <$> fs)
              (rejection req) (acceptance (allocate page <$> fs)) page)
            = false) as Hret.
    { unfold async_filter.
      destruct (allocate page <$> fs) as [|a l] eqn:Harr; [discriminate|].
      rewrite <- Harr. rewrite <- Harr in Hd. apply each_guarded_twice.
      rewrite (existsb_ext_eq _ (λ x, negb (deferred req x)))
        by apply rejection_long.
      by rewrite existsb_negb_forallb, Hd. }
    by destruct (async_filter _ _ _ _ _).
Qed.

(** The theorem at work: a check that answers at once makes the guarded
    filter throw. *)
Lemma guarded_discover_returns_witness :
  returns (discover guarded (object 1)
             (page_of [answers_at_once 5 true; unchecked 1])) = false.
Proof.
  apply (guarded_discover_returns (object 1)
           (page_of [answers_at_once 5 true; unchecked 1])
           [Build_Factory (answers_at_once 5 true);
            Build_Factory (unchecked 1)]);
    reflexivity.
Defined.

(** When a repeated callback is counted again, [discover] returns exactly
    when no check throws. *)
Theorem unguarded_discover_returns req page fs :
  pagelets page = array fs →
  returns (discover unguarded req page)
  = negb (existsb (throws req) (allocate page <$> fs)).
Proof.
  intros Hps. unfold discover. rewrite Hps.
  assert (returns (async_filter unguarded (allocate page <$> fs)
            (rejection req) (acceptance (allocate page <$> fs)) page)
          = negb (existsb (throws req) (allocate page <$> fs))) as Hret.
  { unfold async_filter.
    destruct (allocate page <$> fs) as [|a l] eqn:Harr; [done|].
    rewrite <- Harr. rewrite each_unguarded_returns.
    f_equal. apply existsb_ext_eq, rejection_is_throw. }
  by destruct (async_filter _ _ _ _ _).
Qed.

(** The theorem at work: a check that answers at once is let through. *)
Lemma unguarded_discover_returns_witness :
  returns (discover unguarded (object 1)
             (page_of [answers_at_once 5 true; unchecked 1])) = true.
Proof.
  apply (unguarded_discover_returns (object 1)
           (page_of [answers_at_once 5 true; unchecked 1])
           [Build_Factory (answers_at_once 5 true);
            Build_Factory (unchecked 1)]);
    reflexivity.
Defined.

(** *** What the final callback is given *)

Lemma elem_of_insert_by_index {A} (e a : nat * A) (l : list (nat * A)) :
  e ∈ insert_by_index a l ↔ e = a ∨ e ∈ l.
Proof.
  induction l as [|h l IH]; simpl.
  - rewrite list_elem_of_singleton. split; [by left|].
    by intros [?|?%elem_of_nil].
  - destruct (a.1 <=? h.1).
    + by rewrite elem_of_cons.
    + rewrite !elem_of_cons, IH. tauto.
Qed.

Lemma elem_of_sort_by_index {A} (e : nat * A) (l : list (nat * A)) :
  e ∈ sort_by_index l ↔ e ∈ l.
Proof.
  unfold sort_by_index. induction l as [|a l IH]; simpl; [done|].
  by rewrite elem_of_insert_by_index, elem_of_cons, IH.
Qed.

Lemma enumerate_from_elem {A} (k i : nat) (x : A) (l : list A) :
  (i, x) ∈ enumerate_from k l → x ∈ l ∧ k ≤ i < k + length l.
Proof.
  revert k. induction l as [|y l IH]; intros k; simpl.
  - by intros ?%elem_of_nil.
  - intros [[= -> ->]|Hin]%elem_of_cons.
    + split; [by left|lia].
    + apply IH in Hin as [Hx Hi]. split; [by right|lia].
Qed.

Section last_callback.
Context {A W : Type}.
Variable ver : async_version.
Variable arr : list A.
Variable iterator : A → list action.
Variable callback : list A → W → W.

Lemma done_decided i x v st u st' :
  x ∈ arr →
  decided arr callback st →
  done ver arr callback i x v st = Return u st' →
  decided arr callback st'.
Proof.
  intros Hx [Hres Hcb]. unfold done.
  destruct (is_guarded ver && bool_decide (i ∈ called st.1)); [discriminate|].
  assert (∀ e, e ∈ (if v then results st.1 ++ [(i, x)] else results st.1) →
               e.2 ∈ arr) as Hpushed.
  { intros e He. destruct v; [|by apply Hres].
    apply elem_of_app in He as [He|He]; [by apply Hres|].
    apply list_elem_of_singleton in He. by subst e. }
  destruct (finished ver (S (completed st.1)) (length arr)) eqn:Hf;
    intros [= <- <-]; (split; [intros e He|intros Hle]); simpl in *.
  - rewrite elem_of_sort_by_index in He. by apply Hpushed.
  - eexists _, _. split; [|done].
    intros p (e & -> & He)%list_elem_of_fmap.
    rewrite elem_of_sort_by_index in He. by apply Hpushed.
  - by apply Hpushed.
  - apply Hcb. by apply (finished_false_past ver arr).
Qed.

Lemma perform_decided i x acts st u st' :
  x ∈ arr →
  decided arr callback st →
  perform ver arr callback i x acts st = Return u st' →
  decided arr callback st'.
Proof.
  intros Hx. revert st.
  induction acts as [|[v|e] acts IH]; intros st Hdec; simpl.
  - by intros [= <- <-].
  - destruct (done ver arr callback i x v st) as [u1 st1|] eqn:Hd;
      [|discriminate].
    apply IH. by eapply done_decided.
  - discriminate.
Qed.

Lemma each_decided items st u st' :
  (∀ i x, (i, x) ∈ items → x ∈ arr) →
  decided arr callback st →
  each ver arr iterator callback items st = Return u st' →
  decided arr callback st'.
Proof.
  revert st. induction items as [|[i x] items IH]; intros st Hit Hdec; simpl.
  - by intros [= <- <-].
  - destruct (perform ver arr callback i x (iterator x) st) as [u1 st1|] eqn:Hp;
      [|discriminate].
    apply IH.
    + intros j y Hin. apply (Hit j y). by right.
    + eapply perform_decided; [|done|done]. apply (Hit i x). by left.
Qed.

(** When the filter returns, the world is what the final callback made of
    some selection of the items. *)
Lemma async_filter_return_decided w u st :
  (∀ x, ∃ v, call_done v ∈ iterator x) →
  async_filter ver arr iterator callback w = Return u st →
  ∃ allowed w0, (∀ p, p ∈ allowed → p ∈ arr) ∧ st.2 = callback allowed w0.
Proof.
  intros Hit Hret.
  destruct (decide (arr = [])) as [Hnil|Hne].
  { unfold async_filter in Hret. rewrite Hnil in Hret |- *.
    injection Hret as _ <-. exists [], w. by split. }
  pose proof (async_filter_return_reported ver arr iterator callback w u st
                Hne Hit Hret) as [Hc _].
  unfold async_filter in Hret.
  destruct arr as [|a l] eqn:Harr; [done|]. rewrite <- Harr in *.
  apply each_decided in Hret as [_ Hcb].
  - by apply Hcb.
  - intros i x Hin. by apply enumerate_from_elem in Hin as [Hx _].
  - split; simpl; [by intros e ?%elem_of_nil|]. rewrite Harr. simpl. lia.
Qed.
End last_callback.

(** The page a returning [discover] leaves is the work of [acceptance] on
    some selection of the page's pagelets. *)
Lemma discover_return_accepted ver req page fs v page' :
  pagelets page = array fs →
  discover ver req page = Return v page' →
  ∃ allowed page0,
    (∀ p, p ∈ allowed → p ∈ allocate page <$> fs) ∧
    page' = acceptance (allocate page <$> fs) allowed page0.
Proof.
  intros Hps. unfold discover. rewrite Hps.
  destruct (async_filter _ _ _ _ _) as [u st|] eqn:Hf; [|discriminate].
  intros [= _ <-].
  eapply async_filter_return_decided; [|exact Hf].
  apply rejection_reports.
Qed.

(** When [discover] returns, [enabled] and [disabled] are arrays without
    holes that hold pagelets allocated for this page and no others. *)
Theorem discover_partition_sound ver req page fs v page' :
  pagelets page = array fs →
  discover ver req page = Return v page' →
  (∀ entry, entry ∈ enabled page' →
     ∃ p, entry = Some p ∧ p ∈ allocate page <$> fs) ∧
  (∀ entry, entry ∈ disabled page' →
     ∃ p, entry = Some p ∧ p ∈ allocate page <$> fs).
Proof.
  intros Hps Hret.
  destruct (discover_return_accepted ver req page fs v page' Hps Hret)
    as (allowed & page0 & Hsub & ->).
  unfold acceptance. simpl. split.
  - intros entry (p & -> & Hp)%list_elem_of_fmap. eauto.
  - intros entry (p & -> & Hp)%list_elem_of_fmap. exists p. split; [done|].
    by apply list_elem_of_In, filter_In in Hp as [?%list_elem_of_In _].
Qed.

(** The theorem at work on a page with a denied pagelet. *)
Lemma discover_partition_sound_witness :
  ∃ page',
    discover unguarded (object 1)
      (page_of [answers_later 2 false; unchecked 1]) = Return undefined page' ∧
    (∀ entry, entry ∈ enabled page' →
       ∃ p, entry = Some p ∧ p ∈ [answers_later 2 false; unchecked 1]) ∧
    (∀ entry, entry ∈ disabled page' →
       ∃ p, entry = Some p ∧ p ∈ [answers_later 2 false; unchecked 1]).
Proof.
  eexists. split; [vm_compute; reflexivity|].
  apply (discover_partition_sound unguarded (object 1)
           (page_of [answers_later 2 false; unchecked 1])
           [Build_Factory (answers_later 2 false); Build_Factory (unchecked 1)]
           undefined);
    vm_compute; reflexivity.
Defined.

(** Whatever the checks do, when [discover] returns every pagelet of the
    page is in [disabled] except the one that comes first in [enabled]. *)
Theorem discover_disables_all_but_first ver req page fs v page' p :
  pagelets page = array fs →
  discover ver req page = Return v page' →
  Some p ∈ disabled page' ↔
  p ∈ allocate page <$> fs ∧
  ∀ a, head (enabled page') = Some (Some a) → ident a ≠ ident p.
Proof.
  intros Hps Hret.
  destruct (discover_return_accepted ver req page fs v page' Hps Hret)
    as (allowed & page0 & Hsub & ->).
  rewrite acceptance_disabled_iff.
  assert (head (enabled (acceptance (allocate page <$> fs) allowed page0))
          = Some <$> head allowed) as -> by (by destruct allowed).
  split; intros [Hp Hne]; (split; [done|]); intros a Ha; apply Hne.
  - destruct (head allowed); by simplify_eq/=.
  - by rewrite Ha.
Qed.

(** The theorem at work: the second of two unchecked pagelets is
    disabled. *)
Lemma discover_disables_all_but_first_witness :
  ∃ page',
    discover guarded (object 1) (page_of [unchecked 1; unchecked 2])
      = Return undefined page' ∧
    Some (unchecked 2) ∈ disabled page'.
Proof.
  eexists. split; [vm_compute; reflexivity|].
  apply (discover_disables_all_but_first guarded (object 1)
           (page_of [unchecked 1; unchecked 2])
           [Build_Factory (unchecked 1); Build_Factory (unchecked 2)]
           undefined _ (unchecked 2));
    [vm_compute; reflexivity | vm_compute; reflexivity |].
  split; [right; left|].
  intros a [= <-]. vm_compute. lia.
Defined.

(** *** Answers that arrive late *)

Lemma invoked_subset {A W} ver (arr : list A) iterator
    (callback : list A → W → W) items st e :
  e ∈ invoked ver arr iterator callback items st → e ∈ items.
Proof.
  revert st. induction items as [|[i x] items IH]; intros st; simpl; [done|].
  intros [->|Hin]%elem_of_cons; [by left|]. right.
  destruct (perform ver arr callback i x (iterator x) st) as [u st'|];
    [by apply (IH st')|by apply elem_of_nil in Hin].
Qed.

(** When the fan-out returns, every iterator was invoked. *)
Lemma invoked_all {A W} ver (arr : list A) iterator
    (callback : list A → W → W) items st u st' :
  each ver arr iterator callback items st = Return u st' →
  invoked ver arr iterator callback items st = items.
Proof.
  revert st. induction items as [|[i x] items IH]; intros st; simpl; [done|].
  destruct (perform ver arr callback i x (iterator x) st) as [u1 st1|];
    [|discriminate].
  intros He. f_equal. by apply (IH st1).
Qed.

Lemma pending_indices ver req page fs :
  pagelets page = array fs →
  Forall (λ c : nat * Pagelet * bool, c.1.1 < length fs)
    (pending ver req page).
Proof.
  intros Hps. unfold pending. rewrite Hps.
  apply Forall_forall. intros c Hc.
  apply list_elem_of_bind in Hc as ([i x] & Hc & Hix).
  apply invoked_subset in Hix.
  apply enumerate_from_elem in Hix as [_ Hi]. rewrite length_fmap in Hi.
  destruct (authorize x) as [check|]; [|by apply elem_of_nil in Hc].
  apply list_elem_of_fmap in Hc as (v & -> & _). simpl. lia.
Qed.

(** The answers of checks that report in a later turn never reach the
    page: once [discover] has returned, [enabled] and [disabled] stay as
    they are, whatever the checks answer. *)
Theorem late_answers_change_nothing ver req page fs v page' :
  pagelets page = array fs →
  discover ver req page = Return v page' →
  discover_settled ver req page = page'.
Proof.
  intros Hps Hret. pose proof (pending_indices ver req page fs Hps) as Hpend.
  unfold discover_settled. unfold discover in Hret. rewrite Hps in Hret |- *.
  destruct (async_filter ver (allocate page <$> fs) (rejection req)
              (acceptance (allocate page <$> fs)) page) as [u st|] eqn:Hf;
    [|discriminate].
  injection Hret as _ <-. cbn [state_of].
  by apply (late_calls_inert ver req page fs u st).
Qed.

(** The theorem at work on a page whose checks answer [true] and
    [false]. *)
Lemma late_answers_change_nothing_witness :
  ∃ page',
    discover unguarded (object 1)
      (page_of [answers_later 2 true; answers_later 3 false])
      = Return undefined page' ∧
    discover_settled unguarded (object 1)
      (page_of [answers_later 2 true; answers_later 3 false]) = page'.
Proof.
  eexists. split; [vm_compute; reflexivity|].
  apply (late_answers_change_nothing unguarded (object 1)
           (page_of [answers_later 2 true; answers_later 3 false])
           [Build_Factory (answers_later 2 true);
            Build_Factory (answers_later 3 false)] undefined);
    vm_compute; reflexivity.
Defined.

(** *** The partition with deferred checks *)

Lemma filter_all_true {A} (f : A → bool) (l : list A) :
  (∀ x, x ∈ l → f x = true) → List.filter f l = l.
Proof.
  induction l as [|x l IH]; intros Hall; simpl; [done|].
  rewrite (Hall x) by (by left). f_equal. apply IH.
  intros y Hy. apply Hall. by right.
Qed.

(** On a page whose pagelets are distinct objects and whose checks all
    report in a later turn, [discover] returns with every pagelet in
    [enabled], in registration order, and with every pagelet but the first
    in [disabled]. *)
Theorem discover_deferred_partition ver req page fs :
  pagelets page = array fs →
  forallb (deferred req) (allocate page <$> fs) = true →
  NoDup (ident <$> (allocate page <$> fs)) →
  ∃ page',
    discover ver req page = Return undefined page' ∧
    enabled page' = Some <$> (allocate page <$> fs) ∧
    disabled page' = Some <$> tail (allocate page <$> fs).
Proof.
  intros Hps Hd Hnd. eexists. split; [by apply discover_deferred|].
  split; [done|]. unfold acceptance. simpl. f_equal.
  destruct (allocate page <$> fs) as [|a rest]; [done|].
  simpl. unfold indexOf at 1. simpl. rewrite Nat.eqb_refl. simpl.
  apply filter_all_true. intros p Hp.
  rewrite truthy_indexOf. apply negb_true_iff, Nat.eqb_neq.
  apply NoDup_cons in Hnd as [Hnotin _]. intros Heq.
  apply Hnotin. rewrite Heq. by apply list_elem_of_fmap_2.
Qed.

(** The theorem at work on a page with three pagelets, one of them
    denied. *)
Lemma discover_deferred_partition_witness :
  ∃ page',
    discover guarded (object 1)
      (page_of [unchecked 1; answers_later 2 true; answers_later 3 false])
      = Return undefined page' ∧
    enabled page'
      = [Some (unchecked 1); Some (answers_later 2 true);
         Some (answers_later 3 false)] ∧
    disabled page'
      = [Some (answers_later 2 true); Some (answers_later 3 false)].
Proof.
  apply (discover_deferred_partition guarded (object 1)
           (page_of [unchecked 1; answers_later 2 true; answers_later 3 false])
           [Build_Factory (unchecked 1); Build_Factory (answers_later 2 true);
            Build_Factory (answers_later 3 false)]).
  - reflexivity.
  - reflexivity.
  - apply (bool_decide_unpack _). vm_compute. exact I.
Defined.

(** ** [configure], twice *)

(** A second [configure] in a row leaves the page exactly as the first
    one left it. *)
Theorem configure_twice_same_page
    ver req1 res1 req2 res2 page v1 page1 v2 page2 :
  configure ver req1 res1 page = Return v1 page1 →
  configure ver req2 res2 page1 = Return v2 page2 →
  v2 = v1 ∧ page2 = page1.
Proof.
  unfold configure. intros H1 H2.
  pose proof (discover_frame ver undefined (reset page)) as Hf1.
  destruct (discover ver undefined (reset page)) as [u1 p1|] eqn:Hd1;
    [|discriminate].
  injection H1 as <- <-.
  pose proof (discover_frame ver undefined (reset p1)) as Hf2.
  destruct (discover ver undefined (reset p1)) as [u2 p2|] eqn:Hd2;
    [|discriminate].
  injection H2 as <- <-.
  destruct Hf1 as (Hs1 & Hco1 & Hcd1 & Hps1 & Hl1).
  destruct Hf2 as (Hs2 & Hco2 & Hcd2 & Hps2 & Hl2).
  cbn [state_of] in *.
  rewrite reset_connections in Hco1, Hco2.
  rewrite reset_conditional in Hcd1, Hcd2.
  rewrite reset_listeners in Hl1, Hl2.
  rewrite reset_self in Hs1, Hs2. rewrite reset_pagelets in Hps1, Hps2.
  destruct (discover_partition_determined ver undefined (reset p1)
              (reset page) u2 p2 u1 p1) as [Hen Hdi]; [|done|done|].
  { by rewrite !reset_pagelets. }
  split; [by rewrite Hs2|].
  destruct p1, p2. simpl in *. by subst.
Qed.

(** The theorem at work on a page in use. *)
Lemma configure_twice_same_page_witness :
  ∃ v1 page1 v2 page2,
    configure guarded (object 7) (object 8)
      (busy_page [unchecked 1; answers_later 2 false]) = Return v1 page1 ∧
    configure guarded (object 9) (object 10) page1 = Return v2 page2 ∧
    v2 = v1 ∧ page2 = page1.
Proof.
  eexists _, _, _, _.
  split; [vm_compute; reflexivity|]. split; [vm_compute; reflexivity|].
  eapply (configure_twice_same_page guarded (object 7) (object 8)
            (object 9) (object 10)
            (busy_page [unchecked 1; answers_later 2 false]));
    vm_compute; reflexivity.
Defined.

(** Two pages with the same pagelets get the same partition from
    [configure], whatever they held before: nothing of an earlier request
    shows in [enabled] or [disabled]. *)
Theorem configure_partition_from_pagelets
    ver req1 res1 req2 res2 p q v1 p' v2 q' :
  pagelets p = pagelets q →
  configure ver req1 res1 p = Return v1 p' →
  configure ver req2 res2 q = Return v2 q' →
  enabled p' = enabled q' ∧ disabled p' = disabled q'.
Proof.
  unfold configure. intros Hps H1 H2.
  destruct (discover ver undefined (reset p)) as [u1 p1|] eqn:Hd1;
    [|discriminate].
  injection H1 as _ <-.
  destruct (discover ver undefined (reset q)) as [u2 q1|] eqn:Hd2;
    [|discriminate].
  injection H2 as _ <-.
  eapply discover_partition_determined; [|exact Hd1|exact Hd2].
  by rewrite !reset_pagelets.
Qed.

(** The theorem at work on a fresh page and a page in use. *)
Lemma configure_partition_from_pagelets_witness :
  ∃ v1 p' v2 q',
    configure unguarded (object 7) (object 8)
      (page_of [unchecked 1; answers_later 2 false]) = Return v1 p' ∧
    configure unguarded (object 9) (object 10)
      (busy_page [unchecked 1; answers_later 2 false]) = Return v2 q' ∧
    enabled p' = enabled q' ∧ disabled p' = disabled q'.
Proof.
  eexists _, _, _, _.
  split; [vm_compute; reflexivity|]. split; [vm_compute; reflexivity|].
  eapply (configure_partition_from_pagelets unguarded (object 7) (object 8)
            (object 9) (object 10)
            (page_of [unchecked 1; answers_later 2 false])
            (busy_page [unchecked 1; answers_later 2 false]));
    vm_compute; reflexivity.
Defined.
